(** * safemem: safe wrappers for [ptr::copy] and [ptr::write_bytes]

    A shallow embedding of [src/lib.rs].  A [&mut [T]] is the list of its
    elements, threaded through the calls as explicit state; a panic aborts
    the call and leaves the slice in whatever state it had reached (Rust
    unwinding does not roll back writes).  [usize] values are [N], bounded
    by [usize_limit] = 2^64. *)

From Stdlib Require Import NArith ZArith Lia.
From stdpp Require Import base list strings.

Open Scope N_scope.

(** ** Machine integers *)

Definition usize_limit : N := 2 ^ 64.

Definition is_usize (x : N) : Prop := x < usize_limit.

(** [usize::checked_add] *)
Definition checked_add (a b : N) : option N :=
  if a + b <? usize_limit then Some (a + b) else None.

(** ** Panics and the slice-state monad *)

(** The panic payloads of [lib.rs]. *)
Inductive panic :=
  (** [idx_check!]: "`<idx>` ({}) out of bounds. Length: {}" *)
  | IdxOutOfBounds (name : string) (idx slen : N)
  (** [len_check!]'s [.expect]: "Overflow evaluating <start + len>" *)
  | AddOverflow (expr : string)
  (** [len_check!]'s assertion:
      "Length {} starting at {} is out of bounds (slice len {})." *)
  | LenOutOfBounds (len start slen : N)
  (** indexing [slice[i]] out of range *)
  | IndexOutOfRange (idx slen : N).

Inductive outcome (A : Type) :=
  | Ok (a : A)
  | Panic (p : panic).
Arguments Ok {A} a.
Arguments Panic {A} p.

(** A computation over a mutable slice state [S]. *)
Definition M (S A : Type) : Type := S -> outcome A * S.

Definition ret {S A} (a : A) : M S A := fun s => (Ok a, s).

Definition bind {S A B} (m : M S A) (k : A -> M S B) : M S B :=
  fun s => match m s with
           | (Ok a, s') => k a s'
           | (Panic p, s') => (Panic p, s')
           end.

Notation "x <- m ;; k" := (bind m (fun x => k))
  (at level 100, m at next level, right associativity).
Notation "m ;;; k" := (bind m (fun _ => k))
  (at level 100, right associativity).

(** [assert!(cond, msg)] *)
Definition assert {S} (b : bool) (p : panic) : M S unit :=
  fun s => if b then (Ok tt, s) else (Panic p, s).

(** [Option::expect(msg)] *)
Definition expect {S A} (o : option A) (p : panic) : M S A :=
  fun s => match o with Some a => (Ok a, s) | None => (Panic p, s) end.

Section Slice.
Context {T : Type}.

(** [slice.len()] *)
Definition slice_len : M (list T) N := fun s => (Ok (N.of_nat (length s)), s).

(** [idx_check!(slice, idx)] *)
Definition idx_check (name : string) (idx : N) : M (list T) unit :=
  n <- slice_len ;;
  assert (idx <? n) (IdxOutOfBounds name idx n).

(** [len_check!(slice, start, len)]; [expr] is [stringify!(start + len)]. *)
Definition len_check (expr : string) (start len : N) : M (list T) unit :=
  sum <- expect (checked_add start len) (AddOverflow expr) ;;
  n <- slice_len ;;
  assert (sum <=? n) (LenOutOfBounds len start n).

(** [&slice[i]]: the bounds check of slice indexing. *)
Definition index (i : N) : M (list T) unit :=
  n <- slice_len ;;
  assert (i <? n) (IndexOutOfRange i n).

(** One element move of [ptr::copy]: [*dest.add(i) = *src.add(i)]. *)
Definition move1 (src dest i : nat) (s : list T) : list T :=
  match s !! (src + i)%nat with
  | Some x => <[(dest + i)%nat := x]> s
  | None => s
  end.

(** Ascending moves of the indices [0 .. k-1]. *)
Fixpoint copy_fwd (src dest k : nat) (s : list T) : list T :=
  match k with
  | O => s
  | S k' => move1 src dest k' (copy_fwd src dest k' s)
  end.

(** Descending moves of the indices [k-1 .. 0]. *)
Fixpoint copy_bwd (src dest k : nat) (s : list T) : list T :=
  match k with
  | O => s
  | S k' => copy_bwd src dest k' (move1 src dest k' s)
  end.

(** [ptr::copy(src_ptr, dest_ptr, len)] on pointers into the slice: memmove,
    element by element, ascending when the destination lies at or below the
    source and descending otherwise. *)
Definition ptr_copy (src dest len : N) : M (list T) unit :=
  fun s =>
    let src := N.to_nat src in
    let dest := N.to_nat dest in
    let len := N.to_nat len in
    (Ok tt, if (dest <=? src)%nat then copy_fwd src dest len s
            else copy_bwd src dest len s).

(** [pub fn copy<T: Copy>(slice: &mut [T], src_idx, dest_idx, len)] *)
Definition copy (src_idx dest_idx len : N) : M (list T) unit :=
  idx_check "src_idx" src_idx ;;;
  idx_check "dest_idx" dest_idx ;;;
  len_check "src_idx + len" src_idx len ;;;
  len_check "dest_idx + len" dest_idx len ;;;
  index src_idx ;;;
  index dest_idx ;;;
  ptr_copy src_idx dest_idx len.

End Slice.

(** ** [write_bytes] *)

(** [ptr::write_bytes(ptr, byte, count)]: [*ptr.add(i) = byte] for
    [i] in [0 .. count-1]. *)
Fixpoint write_bytes_loop (b : Byte.byte) (k : nat) (s : list Byte.byte)
  : list Byte.byte :=
  match k with
  | O => s
  | S k' => <[k' := b]> (write_bytes_loop b k' s)
  end.

Definition ptr_write_bytes (b : Byte.byte) (count : N) : M (list Byte.byte) unit :=
  fun s => (Ok tt, write_bytes_loop b (N.to_nat count) s).

(** [pub fn write_bytes(slice: &mut [u8], byte: u8)] *)
Definition write_bytes (byte : Byte.byte) : M (list Byte.byte) unit :=
  n <- slice_len ;;
  ptr_write_bytes byte n.

(** ** Specification-side definitions *)

(** The precondition of copy (spec section 3), on a slice of length [n]. *)
Definition copy_pre (n src dest len : N) : Prop :=
  src < n /\ dest < n /\ src + len <= n /\ dest + len <= n /\
  src + len < usize_limit /\ dest + len < usize_limit.

(** The copy of the specification: read [s[src .. src+len)] into a
    temporary buffer, then write the buffer over [s[dest .. dest+len)]. *)
Definition copy_via_buffer {T} (src dest len : nat) (s : list T) : list T :=
  let tmp := take len (drop src s) in
  take dest s ++ tmp ++ drop (dest + len) s.

(** The four preconditions of copy in the order of the spec, each with the
    diagnostic of its failure. *)
Definition bound_check (name : string) (n idx : N) : option panic :=
  if idx <? n then None else Some (IdxOutOfBounds name idx n).

Definition range_check (expr : string) (n start len : N) : option panic :=
  if usize_limit <=? start + len then Some (AddOverflow expr)
  else if n <? start + len then Some (LenOutOfBounds len start n)
  else None.

Definition copy_checks (n src dest len : N) : list (option panic) :=
  [bound_check "src_idx" n src; bound_check "dest_idx" n dest;
   range_check "src_idx + len" n src len; range_check "dest_idx + len" n dest len].

Fixpoint first_failure (l : list (option panic)) : option panic :=
  match l with
  | [] => None
  | Some p :: _ => Some p
  | None :: l' => first_failure l'
  end.

(** ** The memmove of [ptr::copy] *)

Section Memmove.
Context {T : Type}.
Implicit Types s t : list T.

Lemma length_move1 src dest i s : length (move1 src dest i s) = length s.
Proof. unfold move1. destruct (s !! _); [apply length_insert | done]. Qed.

Lemma length_copy_fwd src dest k s : length (copy_fwd src dest k s) = length s.
Proof. induction k; simpl; [done|]. by rewrite length_move1. Qed.

Lemma length_copy_bwd src dest k s : length (copy_bwd src dest k s) = length s.
Proof.
  revert s; induction k; intros s; simpl; [done|]. by rewrite IHk, length_move1.
Qed.

(** The lookups of a slice after [len] elements moved from [src] to [dest]. *)
Definition moved (src dest len : nat) s (i : nat) : option T :=
  if decide (dest <= i < dest + len)%nat then s !! (src + (i - dest))%nat
  else s !! i.

Lemma copy_fwd_lookup src dest k s i :
  (dest <= src)%nat -> (src + k <= length s)%nat -> (dest + k <= length s)%nat ->
  copy_fwd src dest k s !! i = moved src dest k s i.
Proof.
  intros Hle Hs Hd. revert i. induction k as [|k IH]; intros i; simpl.
  - unfold moved. case_decide; [lia | done].
  - assert (Hx : copy_fwd src dest k s !! (src + k)%nat = s !! (src + k)%nat).
    { rewrite IH by lia. unfold moved. case_decide; [lia | done]. }
    destruct (lookup_lt_is_Some_2 s (src + k)%nat) as [x Hsx]; [lia|].
    unfold move1. rewrite Hx, Hsx.
    destruct (decide (i = dest + k)%nat) as [->|Hne].
    + rewrite list_lookup_insert_eq by (rewrite length_copy_fwd; lia).
      unfold moved. case_decide; [|lia]. rewrite <- Hsx. f_equal. lia.
    + rewrite list_lookup_insert_ne by lia. rewrite IH by lia. unfold moved.
      repeat case_decide; (done || lia).
Qed.

Lemma copy_bwd_lookup_gen src dest len k s t :
  (src < dest)%nat -> (src + len <= length s)%nat -> (dest + len <= length s)%nat ->
  (k <= len)%nat -> length t = length s ->
  (forall i, t !! i = if decide (dest + k <= i < dest + len)%nat
                      then s !! (src + (i - dest))%nat else s !! i) ->
  forall i, copy_bwd src dest k t !! i = moved src dest len s i.
Proof.
  intros Hlt Hs Hd. revert t. induction k as [|k IH]; intros t Hk Hlen Ht i; simpl.
  - rewrite Ht. unfold moved. repeat case_decide; (done || lia).
  - apply IH; [lia | by rewrite length_move1 |]. intros j.
    destruct (lookup_lt_is_Some_2 s (src + k)%nat) as [x Hsx]; [lia|].
    unfold move1. rewrite Ht. case_decide; [lia|]. rewrite Hsx.
    destruct (decide (j = dest + k)%nat) as [->|Hne].
    + rewrite list_lookup_insert_eq by lia.
      case_decide; [|lia]. rewrite <- Hsx. f_equal. lia.
    + rewrite list_lookup_insert_ne by lia. rewrite Ht.
      repeat case_decide; (done || lia).
Qed.

Lemma copy_bwd_lookup src dest len s i :
  (src < dest)%nat -> (src + len <= length s)%nat -> (dest + len <= length s)%nat ->
  copy_bwd src dest len s !! i = moved src dest len s i.
Proof.
  intros Hlt Hs Hd. apply copy_bwd_lookup_gen; try done.
  intros j. case_decide; [lia | done].
Qed.

Lemma copy_via_buffer_lookup src dest len s i :
  (src + len <= length s)%nat -> (dest + len <= length s)%nat ->
  copy_via_buffer src dest len s !! i = moved src dest len s i.
Proof.
  intros Hs Hd. unfold copy_via_buffer, moved.
  assert (Ht : length (take dest s) = dest) by (apply length_take_le; lia).
  assert (Hb : length (take len (drop src s)) = len)
    by (apply length_take_le; rewrite length_drop; lia).
  destruct (decide (i < dest)%nat).
  - rewrite lookup_app_l by lia. rewrite lookup_take_lt by lia.
    case_decide; [lia | done].
  - rewrite lookup_app_r by lia. rewrite Ht.
    destruct (decide (i - dest < len)%nat).
    + rewrite lookup_app_l by lia. rewrite lookup_take_lt by lia.
      rewrite lookup_drop. case_decide; [done | lia].
    + rewrite lookup_app_r by lia. rewrite Hb, lookup_drop.
      case_decide; [lia|]. f_equal. lia.
Qed.

(** memmove agrees with the copy through a temporary buffer. *)
Lemma ptr_copy_buffer src dest len s :
  (src + len <= length s)%nat -> (dest + len <= length s)%nat ->
  (if (dest <=? src)%nat then copy_fwd src dest len s else copy_bwd src dest len s)
  = copy_via_buffer src dest len s.
Proof.
  intros Hs Hd. apply list_eq. intros i.
  rewrite copy_via_buffer_lookup by done.
  destruct (Nat.leb_spec dest src).
  - by apply copy_fwd_lookup.
  - by apply copy_bwd_lookup.
Qed.

End Memmove.

(** ** The checks of [copy] *)

Ltac N_cases :=
  repeat match goal with
  | |- context [N.ltb ?a ?b] => destruct (N.ltb_spec a b)
  | |- context [N.leb ?a ?b] => destruct (N.leb_spec a b)
  end.

Section CopyChecks.
Context {T : Type}.
Implicit Types s : list T.

(** [copy] runs the checks of [copy_checks] in order and stops at the first
    failure with the slice untouched; when all pass it moves the range. *)
Lemma copy_unfold src dest len s :
  copy src dest len s =
  match first_failure (copy_checks (N.of_nat (length s)) src dest len) with
  | Some p => (Panic p, s)
  | None => (Ok tt, copy_via_buffer (N.to_nat src) (N.to_nat dest) (N.to_nat len) s)
  end.
Proof.
  unfold copy, idx_check, len_check, index, ptr_copy, bind, slice_len, assert,
    expect, checked_add, copy_checks, bound_check, range_check.
  cbn [first_failure].
  N_cases; try lia; try reflexivity.
  rewrite ptr_copy_buffer by lia. reflexivity.
Qed.

Lemma first_failure_none n src dest len :
  first_failure (copy_checks n src dest len) = None <-> copy_pre n src dest len.
Proof.
  unfold copy_checks, bound_check, range_check, copy_pre. cbn [first_failure].
  split.
  - N_cases; intros Hf; try discriminate; lia.
  - intros Hp. N_cases; try lia; reflexivity.
Qed.

End CopyChecks.

(** ** The fill loop of [ptr::write_bytes] *)

Lemma length_write_bytes_loop b k s : length (write_bytes_loop b k s) = length s.
Proof. induction k; simpl; [done|]. by rewrite length_insert. Qed.

Lemma write_bytes_loop_lookup b k s i :
  (k <= length s)%nat ->
  write_bytes_loop b k s !! i = if decide (i < k)%nat then Some b else s !! i.
Proof.
  intros Hk. induction k as [|k IH]; cbn [write_bytes_loop].
  - case_decide; [lia | done].
  - destruct (decide (i = k)) as [->|Hne].
    + rewrite list_lookup_insert_eq by (rewrite length_write_bytes_loop; lia).
      clear IH. case_decide; [done | lia].
    + rewrite list_lookup_insert_ne by lia. rewrite IH by lia. clear IH.
      repeat case_decide; (done || lia).
Qed.

Lemma write_bytes_replicate b s :
  write_bytes b s = (Ok tt, replicate (length s) b).
Proof.
  unfold write_bytes, bind, slice_len, ptr_write_bytes. rewrite Nat2N.id.
  f_equal. apply list_eq. intros i.
  rewrite write_bytes_loop_lookup by lia.
  case_decide.
  - by rewrite lookup_replicate_2.
  - rewrite !lookup_ge_None_2; rewrite ?length_replicate; (done || lia).
Qed.

Lemma copy_via_buffer_same {T} src len (s : list T) :
  (src + len <= length s)%nat -> copy_via_buffer src src len s = s.
Proof.
  intros H. apply list_eq. intros i. rewrite copy_via_buffer_lookup by lia.
  unfold moved. case_decide; [|done]. f_equal. lia.
Qed.

Lemma copy_via_buffer_nil {T} src dest (s : list T) :
  copy_via_buffer src dest 0 s = s.
Proof. unfold copy_via_buffer. simpl. rewrite Nat.add_0_r. apply take_drop. Qed.

(** ** Claims *)

Definition region6 : list Z := [0; 1; 2; 3; 4; 5]%Z.

(** C1: for in-bounds arguments (spec section 3), [copy] succeeds and the
    slice becomes the one obtained by copying [s[src .. src+len)] through a
    temporary buffer into [s[dest .. dest+len)], for any overlap. *)
Theorem copy_correct {T} (s : list T) src dest len :
  copy_pre (N.of_nat (length s)) src dest len ->
  copy src dest len s =
  (Ok tt, copy_via_buffer (N.to_nat src) (N.to_nat dest) (N.to_nat len) s).
Proof.
  intros Hpre. rewrite copy_unfold.
  apply first_failure_none in Hpre. by rewrite Hpre.
Qed.

(** C1 on [0,1,2,3,4,5] with [src_idx = 0], [dest_idx = 2], [len = 3]. *)
Lemma copy_correct_witness :
  copy 0 2 3 region6 = (Ok tt, copy_via_buffer 0 2 3 region6) /\
  copy_via_buffer 0 2 3 region6 = [0; 1; 0; 1; 2; 5]%Z.
Proof.
  split.
  - apply (copy_correct region6 0 2 3). unfold copy_pre, usize_limit. simpl. lia.
  - vm_compute. reflexivity.
Defined.

(** C2: when a precondition fails, [copy] panics and the slice is left
    exactly as it was before the call. *)
Theorem copy_violation_aborts {T} (s : list T) src dest len :
  ~ copy_pre (N.of_nat (length s)) src dest len ->
  exists p, copy src dest len s = (Panic p, s).
Proof.
  intros Hn. rewrite copy_unfold.
  destruct (first_failure _) as [p|] eqn:Hf.
  - by exists p.
  - apply first_failure_none in Hf. contradiction.
Qed.

(** C2 on [0,1,2,3,4,5] with [src_idx = 2], [dest_idx = 1], [len = 7]. *)
Lemma copy_violation_aborts_witness :
  ~ copy_pre 6 2 1 7 /\ exists p, copy 2 1 7 region6 = (Panic p, region6).
Proof.
  assert (Hn : ~ copy_pre 6 2 1 7) by (unfold copy_pre; lia).
  split; [exact Hn|]. apply (copy_violation_aborts region6 2 1 7). exact Hn.
Defined.

(** C3: [write_bytes] never fails and sets every element of the slice to
    the fill byte; on an empty slice it changes nothing. *)
Theorem write_bytes_fills (b : Byte.byte) (s : list Byte.byte) :
  write_bytes b s = (Ok tt, replicate (length s) b) /\
  write_bytes b [] = (Ok tt, []).
Proof. split; apply write_bytes_replicate. Qed.

(** C4 (as stated, refuted): with both start indices in bounds and
    [dest_idx + len] overflowing, the overflow diagnostic is not raised when
    [src_idx + len] fits in a [usize] but exceeds the slice length: the
    third check fails first with the length diagnostic. *)
Lemma copy_overflow_counterexample :
  0 < 2 /\ 1 < 2 /\ usize_limit <= 1 + (usize_limit - 1) /\
  copy 0 1 (usize_limit - 1) [tt; tt] =
    (Panic (LenOutOfBounds (usize_limit - 1) 0 2), [tt; tt]) /\
  ~ (exists e, fst (copy 0 1 (usize_limit - 1) [tt; tt]) = Panic (AddOverflow e)).
Proof.
  assert (Hc : copy 0 1 (usize_limit - 1) [tt; tt] =
               (Panic (LenOutOfBounds (usize_limit - 1) 0 2), [tt; tt]))
    by (vm_compute; reflexivity).
  unfold usize_limit in *. split; [lia|]. split; [lia|]. split; [lia|].
  split; [exact Hc|]. rewrite Hc. intros [e He]. discriminate.
Qed.

(** C4 (amended): with both start indices in bounds and one of the sums
    overflowing, [copy] aborts with the slice untouched; the sums are
    computed with [checked_add].  The diagnostic is the overflow of
    [src_idx + len] when that sum overflows, otherwise the length
    diagnostic of the third check when [src_idx + len] exceeds the slice
    length, otherwise the overflow of [dest_idx + len]. *)
Theorem copy_overflow_aborts {T} (s : list T) src dest len :
  src < N.of_nat (length s) -> dest < N.of_nat (length s) ->
  usize_limit <= src + len \/ usize_limit <= dest + len ->
  copy src dest len s =
  (Panic (if usize_limit <=? src + len then AddOverflow "src_idx + len"
          else if N.of_nat (length s) <? src + len
          then LenOutOfBounds len src (N.of_nat (length s))
          else AddOverflow "dest_idx + len"), s).
Proof.
  intros Hs Hd Ho. rewrite copy_unfold.
  unfold copy_checks, bound_check, range_check. cbn [first_failure].
  N_cases; (reflexivity || lia).
Qed.

(** C4 (amended) on a two-element slice of a zero-sized type, with
    [src_idx = 1], [dest_idx = 0] and [len = usize::MAX]. *)
Lemma copy_overflow_aborts_witness :
  copy 1 0 (usize_limit - 1) [tt; tt] = (Panic (AddOverflow "src_idx + len"), [tt; tt]).
Proof.
  rewrite (copy_overflow_aborts [tt; tt] 1 0 (usize_limit - 1)).
  - vm_compute. reflexivity.
  - simpl. lia.
  - simpl. lia.
  - left. unfold usize_limit. lia.
Defined.

(** C5: a zero-length copy whose source or destination start index equals
    the slice length fails the index check and leaves the slice untouched. *)
Theorem copy_zero_len_at_end {T} (s : list T) src dest :
  src = N.of_nat (length s) \/ dest = N.of_nat (length s) ->
  exists name idx,
    copy src dest 0 s = (Panic (IdxOutOfBounds name idx (N.of_nat (length s))), s).
Proof.
  intros He. rewrite copy_unfold.
  unfold copy_checks, bound_check, range_check. cbn [first_failure].
  N_cases; try lia; eauto.
Qed.

(** C5 on [0,1,2,3,4,5] with [src_idx = 6], [dest_idx = 0], [len = 0]. *)
Lemma copy_zero_len_at_end_witness :
  exists name idx, copy 6 0 0 region6 = (Panic (IdxOutOfBounds name idx 6), region6).
Proof. apply (copy_zero_len_at_end region6 6 0). left. reflexivity. Defined.

(** C6: a copy with equal start indices that passes the checks leaves the
    slice unchanged. *)
Theorem copy_same_index_noop {T} (s : list T) idx len :
  copy_pre (N.of_nat (length s)) idx idx len -> copy idx idx len s = (Ok tt, s).
Proof.
  intros Hpre. rewrite copy_unfold.
  pose proof Hpre as Hp. apply first_failure_none in Hp. rewrite Hp.
  unfold copy_pre in Hpre. rewrite copy_via_buffer_same by lia. reflexivity.
Qed.

(** C6 on [0,1,2,3,4,5] with [src_idx = dest_idx = 2], [len = 3]. *)
Lemma copy_same_index_noop_witness : copy 2 2 3 region6 = (Ok tt, region6).
Proof.
  apply (copy_same_index_noop region6 2 3). unfold copy_pre, usize_limit. simpl. lia.
Defined.

(** C7: a zero-length copy with both start indices in bounds succeeds and
    changes nothing (the slice length being a [usize]). *)
Theorem copy_zero_len_noop {T} (s : list T) src dest :
  is_usize (N.of_nat (length s)) ->
  src < N.of_nat (length s) -> dest < N.of_nat (length s) ->
  copy src dest 0 s = (Ok tt, s).
Proof.
  unfold is_usize. intros Hn Hs Hd. rewrite copy_unfold.
  assert (Hp : copy_pre (N.of_nat (length s)) src dest 0) by (unfold copy_pre; lia).
  apply first_failure_none in Hp. rewrite Hp. by rewrite copy_via_buffer_nil.
Qed.

(** C7 on [0,1,2,3,4,5] with [src_idx = 5], [dest_idx = 0], [len = 0]. *)
Lemma copy_zero_len_noop_witness : copy 5 0 0 region6 = (Ok tt, region6).
Proof.
  apply (copy_zero_len_noop region6 5 0); unfold is_usize, usize_limit; simpl; lia.
Defined.

(** C8: [copy] evaluates its four preconditions in the order of
    [copy_checks] before touching the slice; the panic carries the
    diagnostic of the first one that fails, and it succeeds when none does. *)
Theorem copy_check_order {T} (s : list T) src dest len :
  match first_failure (copy_checks (N.of_nat (length s)) src dest len) with
  | Some p => copy src dest len s = (Panic p, s)
  | None => fst (copy src dest len s) = Ok tt
  end.
Proof.
  rewrite copy_unfold. by destruct (first_failure _).
Qed.

(** C9: on an empty slice every call to [copy] panics. *)
Theorem copy_empty_aborts {T} src dest len :
  exists p, copy src dest len (@nil T) = (Panic p, []).
Proof.
  rewrite copy_unfold. unfold copy_checks, bound_check. cbn [first_failure length].
  N_cases; try lia; eauto.
Qed.

(** C10: the result of [write_bytes] depends only on the slice length and
    the fill byte. *)
Theorem write_bytes_content_independent b (s1 s2 : list Byte.byte) :
  length s1 = length s2 -> write_bytes b s1 = write_bytes b s2.
Proof. intros Hl. by rewrite !write_bytes_replicate, Hl. Qed.

(** C10 on two different byte slices of length 2. *)
Lemma write_bytes_content_independent_witness :
  write_bytes Byte.x09 [Byte.x00; Byte.x01] = write_bytes Byte.x09 [Byte.xff; Byte.x10].
Proof. apply write_bytes_content_independent. reflexivity. Defined.

(** ** Further properties of the code *)

Lemma length_copy_via_buffer {T} src dest len (s : list T) :
  (src + len <= length s)%nat -> (dest + len <= length s)%nat ->
  length (copy_via_buffer src dest len s) = length s.
Proof.
  intros Hs Hd. unfold copy_via_buffer.
  rewrite !length_app, !length_take, length_drop, length_drop. lia.
Qed.

(** [copy] never changes the length of the slice, whether it succeeds or
    panics. *)
Theorem copy_preserves_length {T} (s : list T) src dest len :
  length (snd (copy src dest len s)) = length s.
Proof.
  rewrite copy_unfold. destruct (first_failure _) as [p|] eqn:Hf; [done|].
  apply first_failure_none in Hf. unfold copy_pre in Hf. simpl.
  apply length_copy_via_buffer; lia.
Qed.

(** [copy] leaves every element outside [s[dest_idx .. dest_idx+len)]
    unchanged, whether it succeeds or panics. *)
Theorem copy_frame {T} (s : list T) src dest len i :
  (i < N.to_nat dest \/ N.to_nat dest + N.to_nat len <= i)%nat ->
  snd (copy src dest len s) !! i = s !! i.
Proof.
  intros Hi. rewrite copy_unfold. destruct (first_failure _) as [p|] eqn:Hf; [done|].
  apply first_failure_none in Hf. unfold copy_pre in Hf. simpl.
  rewrite copy_via_buffer_lookup by lia. unfold moved. case_decide; [lia | done].
Qed.

(** [copy_frame] on [0,1,2,3,4,5] moving 3 elements from 0 to 2: index 5
    keeps its value. *)
Lemma copy_frame_witness : snd (copy 0 2 3 region6) !! 5%nat = Some 5%Z.
Proof. rewrite (copy_frame region6 0 2 3 5); [reflexivity | simpl; lia]. Defined.

(** After a successful [copy], the element at [dest_idx + j] (for [j < len])
    is the element that was at [src_idx + j] before the call. *)
Theorem copy_dest_contents {T} (s : list T) src dest len j :
  copy_pre (N.of_nat (length s)) src dest len -> (j < N.to_nat len)%nat ->
  snd (copy src dest len s) !! (N.to_nat dest + j)%nat = s !! (N.to_nat src + j)%nat.
Proof.
  intros Hpre Hj. rewrite copy_unfold.
  pose proof Hpre as Hp. apply first_failure_none in Hp. rewrite Hp.
  unfold copy_pre in Hpre. simpl.
  rewrite copy_via_buffer_lookup by lia. unfold moved. case_decide; [|lia].
  f_equal. lia.
Qed.

(** [copy_dest_contents] on [0,1,2,3,4,5] moving 3 elements from 3 to 1:
    index [1 + 2] receives the old element at [3 + 2]. *)
Lemma copy_dest_contents_witness :
  snd (copy 3 1 3 region6) !! 3%nat = region6 !! 5%nat.
Proof.
  apply (copy_dest_contents region6 3 1 3 2).
  - unfold copy_pre, usize_limit. simpl. lia.
  - simpl. lia.
Defined.

(** On a slice whose length is a [usize], [len_check!] passes exactly when
    the mathematical sum [start + len] is at most the slice length, and it
    never changes the slice: the checked addition lets no wrapped sum
    through. *)
Theorem len_check_exact {T} (s : list T) expr start len :
  is_usize (N.of_nat (length s)) ->
  snd (len_check expr start len s) = s /\
  (fst (len_check expr start len s) = Ok tt <-> start + len <= N.of_nat (length s)).
Proof.
  unfold is_usize. intros Hn.
  unfold len_check, bind, expect, checked_add, slice_len, assert.
  N_cases; split; try reflexivity; split; intros H'; (discriminate || lia || done).
Qed.

(** [len_check_exact] on a two-element slice with [start = 1] and
    [len = usize::MAX]: the wrapped sum [0] is not accepted. *)
Lemma len_check_exact_witness :
  snd (len_check "src_idx + len" 1 (usize_limit - 1) [tt; tt]) = [tt; tt] /\
  (fst (len_check "src_idx + len" 1 (usize_limit - 1) [tt; tt]) = Ok tt <->
   1 + (usize_limit - 1) <= 2).
Proof. apply len_check_exact. unfold is_usize, usize_limit. simpl. lia. Defined.

(** The slice indexing [&slice[src_idx]] and [&mut slice[dest_idx]] in
    [copy] never panics: the explicit checks always fail first. *)
Theorem copy_index_never_panics {T} (s : list T) src dest len i n :
  fst (copy src dest len s) <> Panic (IndexOutOfRange i n).
Proof.
  rewrite copy_unfold. unfold copy_checks, bound_check, range_check.
  cbn [first_failure]. N_cases; discriminate.
Qed.

(** Filling a byte slice twice is the same as filling it once with the
    second byte. *)
Theorem write_bytes_last_wins b c (s : list Byte.byte) :
  write_bytes c (snd (write_bytes b s)) = write_bytes c s.
Proof.
  rewrite (write_bytes_replicate b s). simpl.
  rewrite !write_bytes_replicate, length_replicate. reflexivity.
Qed.
